(** * Verification of the error and diagnostic machinery of rust_LL_parser

    Shallow embedding of [src/src/error.rs] (composite [Error], the
    [Display] renderings, [StdError::source], [print_annot],
    [Error::show_diagnostic] and [show_trace]), together with the lexer,
    parser and interpreter that the error types belong to.  The latter three
    modules ([lexer.rs], [parser.rs], [interpreter.rs]) are not part of the
    sources at hand; they are modelled from the specification and marked as
    such.

    Conventions:
    - [usize] offsets are [nat]; [str::len] is the byte length, and strings
      are [String.string] (one [ascii] per byte);
    - Rust's [char] in [LexErrorKind::InvalidChar] is an [ascii];
    - writes to standard error ([eprintln!]) are the lines of an output
      list threaded through a small state monad that can also panic. *)

From Stdlib Require Import String Ascii List Arith Lia ZArith.
From Stdlib Require DecimalNat.
Import ListNotations.
Open Scope bool_scope.
Open Scope string_scope.

(* ------------------------------------------------------------------ *)
(** ** Rust's [Result] *)

Inductive result (A E : Type) : Type :=
| Ok (a : A)
| Err (e : E).
Arguments Ok {A E} a.
Arguments Err {A E} e.

(* ------------------------------------------------------------------ *)
(** ** Locations and annotated values ([lexer.rs]: [Loc], [Annot]) *)

(** [struct Loc(usize, usize)] *)
Record Loc : Type := mkLoc { loc_0 : nat; loc_1 : nat }.

(** [struct Annot<T> { value: T, loc: Loc }] *)
Record Annot (T : Type) : Type := mkAnnot { value : T; loc : Loc }.
Arguments mkAnnot {T} value loc.
Arguments value {T} a.
Arguments loc {T} a.

Module TokenKind.
(** [enum TokenKind] *)
Inductive t : Type :=
| Number (n : nat)
| Plus
| Minus
| Asterisk
| Slash
| LParen
| RParen.
End TokenKind.

Definition Token : Type := Annot TokenKind.t.

Module LexErrorKind.
(** [enum LexErrorKind { InvalidChar(char), Eof }] *)
Inductive t : Type :=
| InvalidChar (c : ascii)
| Eof.
End LexErrorKind.

Definition LexError : Type := Annot LexErrorKind.t.

Module ParseError.
(** [enum ParseError] *)
Inductive t : Type :=
| UnexpectedToken (tok : Token)
| NotExpression (tok : Token)
| NotOperator (tok : Token)
| UnclosedOpenParen (tok : Token)
| RedundantExpression (tok : Token)
| Eof.
End ParseError.

Module InterpreterErrorKind.
(** [enum InterpreterErrorKind { DivisionByZero }] *)
Inductive t : Type :=
| DivisionByZero.
End InterpreterErrorKind.

Definition InterpreterError : Type := Annot InterpreterErrorKind.t.

(* ------------------------------------------------------------------ *)
(** ** [error.rs]: the composite [Error] and its conversions *)

(** [enum Error { Lexer(LexError), Parser(ParseError) }] *)
Inductive Error : Type :=
| Lexer (e : LexError)
| Parser (e : ParseError.t).

(** [impl From<LexError> for Error] *)
Definition error_from_lex (e : LexError) : Error := Lexer e.

(** [impl From<ParseError> for Error] *)
Definition error_from_parse (e : ParseError.t) : Error := Parser e.

(* ------------------------------------------------------------------ *)
(** ** [Display] implementations *)

Fixpoint string_of_uint (d : Decimal.uint) : string :=
  match d with
  | Decimal.Nil => ""
  | Decimal.D0 d => "0" ++ string_of_uint d
  | Decimal.D1 d => "1" ++ string_of_uint d
  | Decimal.D2 d => "2" ++ string_of_uint d
  | Decimal.D3 d => "3" ++ string_of_uint d
  | Decimal.D4 d => "4" ++ string_of_uint d
  | Decimal.D5 d => "5" ++ string_of_uint d
  | Decimal.D6 d => "6" ++ string_of_uint d
  | Decimal.D7 d => "7" ++ string_of_uint d
  | Decimal.D8 d => "8" ++ string_of_uint d
  | Decimal.D9 d => "9" ++ string_of_uint d
  end.

(** The decimal rendering of an unsigned integer ([n.fmt(f)]). *)
Definition fmt_nat (n : nat) : string := string_of_uint (Nat.to_uint n).

(** [impl Display for TokenKind] *)
Definition fmt_token_kind (k : TokenKind.t) : string :=
  match k with
  | TokenKind.Number n => fmt_nat n
  | TokenKind.Plus => "+"
  | TokenKind.Minus => "-"
  | TokenKind.Asterisk => "*"
  | TokenKind.Slash => "/"
  | TokenKind.LParen => "("
  | TokenKind.RParen => ")"
  end.

(** [impl Display for Loc]: ["{}-{}"] *)
Definition fmt_loc (l : Loc) : string :=
  fmt_nat (loc_0 l) ++ "-" ++ fmt_nat (loc_1 l).

(** [impl Display for LexError] *)
Definition fmt_lex_error (e : LexError) : string :=
  match value e with
  | LexErrorKind.InvalidChar c =>
      fmt_loc (loc e) ++ ": invalid char '" ++ String c EmptyString ++ "'"
  | LexErrorKind.Eof => "End of file"
  end.

(** [impl Display for ParseError] *)
Definition fmt_parse_error (e : ParseError.t) : string :=
  match e with
  | ParseError.UnexpectedToken tok =>
      fmt_loc (loc tok) ++ ": " ++ fmt_token_kind (value tok) ++ " is not expected"
  | ParseError.NotExpression tok =>
      fmt_loc (loc tok) ++ ": '" ++ fmt_token_kind (value tok)
        ++ "' is not a start of expression"
  | ParseError.NotOperator tok =>
      fmt_loc (loc tok) ++ ": '" ++ fmt_token_kind (value tok) ++ "' is not an operator"
  | ParseError.UnclosedOpenParen tok =>
      fmt_loc (loc tok) ++ ": '" ++ fmt_token_kind (value tok) ++ "' is not closed"
  | ParseError.RedundantExpression tok =>
      fmt_loc (loc tok) ++ ": expression after '" ++ fmt_token_kind (value tok)
        ++ "' is redundant"
  | ParseError.Eof => "End of file"
  end.

(** [impl Display for Error]: the argument is not inspected. *)
Definition fmt_error (_ : Error) : string := "parser error".

(** [impl Display for InterpreterError] *)
Definition fmt_interpreter_error (e : InterpreterError) : string :=
  match value e with
  | InterpreterErrorKind.DivisionByZero => "division by zero"
  end.

(* ------------------------------------------------------------------ *)
(** ** Trait objects [&dyn StdError]

    The program implements [StdError] for exactly four types; a trait
    object is one of them.  [display] is the [Display] of the underlying
    type and [source] its [StdError::source] ([LexError], [ParseError] and
    [InterpreterError] keep the default, [None]). *)

Inductive DynError : Type :=
| DLexError (e : LexError)
| DParseError (e : ParseError.t)
| DError (e : Error)
| DInterpreterError (e : InterpreterError).

Definition dyn_display (d : DynError) : string :=
  match d with
  | DLexError e => fmt_lex_error e
  | DParseError e => fmt_parse_error e
  | DError e => fmt_error e
  | DInterpreterError e => fmt_interpreter_error e
  end.

(** [impl StdError for Error { fn source(&self) ... }] *)
Definition error_source (e : Error) : option DynError :=
  match e with
  | Lexer lex => Some (DLexError lex)
  | Parser parse => Some (DParseError parse)
  end.

Definition dyn_source (d : DynError) : option DynError :=
  match d with
  | DError e => error_source e
  | DLexError _ | DParseError _ | DInterpreterError _ => None
  end.

(* ------------------------------------------------------------------ *)
(** ** Standard error and panics

    A computation receives the lines already written to standard error and
    returns its result ([None] when it panics) with the lines written so
    far: what was printed before a panic stays printed. *)

Definition IO (A : Type) : Type := list string -> option A * list string.

Definition io_ret {A} (a : A) : IO A := fun out => (Some a, out).

Definition io_bind {A B} (m : IO A) (k : A -> IO B) : IO B :=
  fun out =>
    match m out with
    | (Some a, out') => k a out'
    | (None, out') => (None, out')
    end.

Definition io_panic {A} : IO A := fun out => (None, out).

Notation "x <- m ;; k" := (io_bind m (fun x => k))
  (at level 61, m at next level, right associativity).
Notation "m ;;; k" := (io_bind m (fun _ => k))
  (at level 61, right associativity).

(** [eprintln!("{}", s)] *)
Definition eprintln (s : string) : IO unit := fun out => (Some tt, (out ++ [s])%list).

(** [a - b] on [usize]: an arithmetic overflow when [b > a] panics. *)
Definition usize_sub (a b : nat) : IO nat :=
  if Nat.leb b a then io_ret (a - b)%nat else io_panic.

(** [s.repeat(n)] *)
Fixpoint repeat_str (s : string) (n : nat) : string :=
  match n with
  | O => ""
  | S n => s ++ repeat_str s n
  end.

(** [fn print_annot(input: &str, loc: Loc)]; the arguments of the second
    [eprintln!] are evaluated, left to right, before it writes. *)
Definition print_annot (input : string) (l : Loc) : IO unit :=
  eprintln input ;;;
  let spaces := repeat_str " " (loc_0 l) in
  width <- usize_sub (loc_1 l) (loc_0 l) ;;
  eprintln (spaces ++ repeat_str "^" width).

(** The [(e, loc)] pair computed by [Error::show_diagnostic]: the error to
    display, as a trait object, and the location to underline. *)
Definition diagnostic_target (e : Error) (input : string) : DynError * Loc :=
  match e with
  | Lexer le => (DLexError le, loc le)
  | Parser pe =>
      let l :=
        match pe with
        | ParseError.UnexpectedToken tok
        | ParseError.NotExpression tok
        | ParseError.NotOperator tok
        | ParseError.UnclosedOpenParen tok => loc tok
        | ParseError.RedundantExpression tok =>
            mkLoc (loc_0 (loc tok)) (String.length input)
        | ParseError.Eof => mkLoc (String.length input) (String.length input + 1)%nat
        end in
      (DParseError pe, l)
  end.

(** [Error::show_diagnostic(&self, input: &str)] *)
Definition show_diagnostic (e : Error) (input : string) : IO unit :=
  let '(d, l) := diagnostic_target e input in
  eprintln (dyn_display d) ;;;
  print_annot input l.

(** The message-then-annotation printer used by [show_diagnostic] once
    the message and the location are known. *)
Definition report (msg input : string) (l : Loc) : IO unit :=
  eprintln msg ;;; print_annot input l.

(** [InterpreterError::show_diagnostic(&self, input: &str)] *)
Definition show_interpreter_diagnostic (e : InterpreterError) (input : string)
  : IO unit :=
  eprintln (fmt_interpreter_error e) ;;;
  print_annot input (loc e).

(* ------------------------------------------------------------------ *)
(** ** [show_trace]

    [fn show_trace<E: StdError>(e: E)] prints [e], then walks the
    [source] links with a [while let] loop.  The loop is written over an
    arbitrary error type with a [display] and a [source] method; since the
    loop need not terminate for an arbitrary [source], it runs on fuel and
    reports exhausted fuel as [None]. *)

Section Trace.
Variable E : Type.
Variable display : E -> string.
Variable source : E -> option E.

(** [while let Some(e) = source { eprintln!("caused by {}", e);
    source = e.source() }] *)
Fixpoint trace_loop (fuel : nat) (src : option E) : IO unit :=
  match src with
  | None => io_ret tt
  | Some e =>
      match fuel with
      | O => io_panic
      | S fuel =>
          eprintln ("caused by " ++ display e) ;;;
          trace_loop fuel (source e)
      end
  end.

Definition show_trace_gen (fuel : nat) (e : E) : IO unit :=
  eprintln (display e) ;;;
  trace_loop fuel (source e).

(** [cause_chain e cs]: [cs] are the errors reached from [e] by
    following [source], the last of which has no source. *)
Inductive cause_chain : E -> list E -> Prop :=
| chain_end e : source e = None -> cause_chain e []
| chain_step e c cs :
    source e = Some c -> cause_chain c cs -> cause_chain e (c :: cs).
End Trace.

Arguments trace_loop {E} display source fuel src.
Arguments show_trace_gen {E} display source fuel e.
Arguments cause_chain {E} source _ _.

(** [show_trace] at the program's trait objects. *)
Definition show_trace (fuel : nat) (e : DynError) : IO unit :=
  show_trace_gen dyn_display dyn_source fuel e.

(* ------------------------------------------------------------------ *)
(** ** Lexer *)

(** [char::is_ascii_whitespace]: space, tab, line feed, form feed and
    carriage return. *)
Definition is_ascii_whitespace (c : ascii) : bool :=
  let n := nat_of_ascii c in
  Nat.eqb n 32 || Nat.eqb n 9 || Nat.eqb n 10 || Nat.eqb n 12 || Nat.eqb n 13.

Definition digit_value (c : ascii) : option nat :=
  let n := nat_of_ascii c in
  if Nat.leb 48 n && Nat.leb n 57 then Some (n - 48)%nat else None.

Definition single_token (c : ascii) : option TokenKind.t :=
  match c with
  | "+"%char => Some TokenKind.Plus
  | "-"%char => Some TokenKind.Minus
  | "*"%char => Some TokenKind.Asterisk
  | "/"%char => Some TokenKind.Slash
  | "("%char => Some TokenKind.LParen
  | ")"%char => Some TokenKind.RParen
  | _ => None
  end.

(** The number token whose digits have been read so far, if any: its
    value and its start offset; it ends at [pos]. *)
Definition flush (cur : option (nat * nat)) (pos : nat) : list Token :=
  match cur with
  | None => []
  | Some (v, st) => [mkAnnot (TokenKind.Number v) (mkLoc st pos)]
  end.

Definition prepend (ts : list Token) (r : result (list Token) LexError)
  : result (list Token) LexError :=
  match r with
  | Ok l => Ok (app ts l)
  | Err e => Err e
  end.

(** Modelled from the spec: [lexer.rs] ([lex]) is not among the sources.
    Section 4.1: a left-to-right scan that skips ASCII whitespace, reads a
    run of digits greedily into one [Number] token, maps each of
    [+ - * / ( )] to its token, and fails at the first other character
    with [InvalidChar] located on that character.  Number literals are
    unbounded here (the spec leaves overflow open). *)
Fixpoint lex_from (s : string) (pos : nat) (cur : option (nat * nat))
  : result (list Token) LexError :=
  match s with
  | EmptyString => Ok (flush cur pos)
  | String c s' =>
      match digit_value c with
      | Some d =>
          let cur' :=
            match cur with
            | None => (d, pos)
            | Some (v, st) => (v * 10 + d, st)%nat
            end in
          lex_from s' (S pos) (Some cur')
      | None =>
          let done := flush cur pos in
          if is_ascii_whitespace c then prepend done (lex_from s' (S pos) None)
          else
            match single_token c with
            | Some k =>
                prepend (app done [mkAnnot k (mkLoc pos (S pos))])
                  (lex_from s' (S pos) None)
            | None =>
                Err (mkAnnot (LexErrorKind.InvalidChar c) (mkLoc pos (S pos)))
            end
      end
  end.

Definition lex (input : string) : result (list Token) LexError :=
  lex_from input 0 None.

(* ------------------------------------------------------------------ *)
(** ** Expression trees *)

Module UniOpKind.
Inductive t : Type := Minus.
End UniOpKind.

Module BinOpKind.
Inductive t : Type := Add | Sub | Mult | Div.
End BinOpKind.

(** Every node carries the location of the text it was parsed from. *)
Inductive Ast : Type :=
| Num (n : nat) (l : Loc)
| UniOp (op : UniOpKind.t) (e : Ast) (l : Loc)
| BinOp (op : BinOpKind.t) (lhs rhs : Ast) (l : Loc).

Definition ast_loc (e : Ast) : Loc :=
  match e with
  | Num _ l | UniOp _ _ l | BinOp _ _ _ l => l
  end.

(** [Loc::merge]: the smallest location covering both. *)
Definition loc_merge (a b : Loc) : Loc :=
  mkLoc (Nat.min (loc_0 a) (loc_0 b)) (Nat.max (loc_1 a) (loc_1 b)).

Definition mk_binop (op : BinOpKind.t) (l r : Ast) : Ast :=
  BinOp op l r (loc_merge (ast_loc l) (ast_loc r)).

(* ------------------------------------------------------------------ *)
(** ** Parser *)

(** The outcome of a parsing function: the tree and the tokens left, or a
    parse error; [None] when the fuel bounding the recursion runs out. *)
Definition PResult : Type := option (result (Ast * list Token) ParseError.t).

Definition addsub_op (tok : Token) : option BinOpKind.t :=
  match value tok with
  | TokenKind.Plus => Some BinOpKind.Add
  | TokenKind.Minus => Some BinOpKind.Sub
  | _ => None
  end.

Definition muldiv_op (tok : Token) : option BinOpKind.t :=
  match value tok with
  | TokenKind.Asterisk => Some BinOpKind.Mult
  | TokenKind.Slash => Some BinOpKind.Div
  | _ => None
  end.

Definition is_minus (tok : Token) : bool :=
  match value tok with TokenKind.Minus => true | _ => false end.

Definition is_rparen (tok : Token) : bool :=
  match value tok with TokenKind.RParen => true | _ => false end.

(** Modelled from the spec: [parser.rs] is not among the sources.
    Section 4.2, recursive descent over the grammar
    [expr := addsub], [addsub := muldiv (('+'|'-') muldiv)*],
    [muldiv := unary (('*'|'/') unary)*], [unary := '-' unary | primary],
    [primary := Number | '(' expr ')'].  The two repetitions are loops
    folding to the left ([addsub_loop], [muldiv_loop]), each new node
    located on the merge of its operands; [primary] fails with
    [NotExpression] on a token that cannot start an expression, with [Eof]
    at the end of the tokens, and with [UnclosedOpenParen] on the opening
    parenthesis when the inner expression is not followed by [')'].
    Every call spends one unit of fuel. *)
Fixpoint parse_expr (fuel : nat) (ts : list Token) : PResult :=
  match fuel with
  | O => None
  | S f => parse_addsub f ts
  end
with parse_addsub (fuel : nat) (ts : list Token) : PResult :=
  match fuel with
  | O => None
  | S f =>
      match parse_muldiv f ts with
      | Some (Ok (e, rest)) => addsub_loop f e rest
      | r => r
      end
  end
with addsub_loop (fuel : nat) (e : Ast) (ts : list Token) : PResult :=
  match fuel with
  | O => None
  | S f =>
      match ts with
      | [] => Some (Ok (e, []))
      | tok :: ts' =>
          match addsub_op tok with
          | None => Some (Ok (e, ts))
          | Some op =>
              match parse_muldiv f ts' with
              | Some (Ok (r, rest)) => addsub_loop f (mk_binop op e r) rest
              | x => x
              end
          end
      end
  end
with parse_muldiv (fuel : nat) (ts : list Token) : PResult :=
  match fuel with
  | O => None
  | S f =>
      match parse_unary f ts with
      | Some (Ok (e, rest)) => muldiv_loop f e rest
      | r => r
      end
  end
with muldiv_loop (fuel : nat) (e : Ast) (ts : list Token) : PResult :=
  match fuel with
  | O => None
  | S f =>
      match ts with
      | [] => Some (Ok (e, []))
      | tok :: ts' =>
          match muldiv_op tok with
          | None => Some (Ok (e, ts))
          | Some op =>
              match parse_unary f ts' with
              | Some (Ok (r, rest)) => muldiv_loop f (mk_binop op e r) rest
              | x => x
              end
          end
      end
  end
with parse_unary (fuel : nat) (ts : list Token) : PResult :=
  match fuel with
  | O => None
  | S f =>
      match ts with
      | tok :: ts' =>
          if is_minus tok then
            match parse_unary f ts' with
            | Some (Ok (e, rest)) =>
                Some (Ok (UniOp UniOpKind.Minus e (loc_merge (loc tok) (ast_loc e)), rest))
            | x => x
            end
          else parse_primary f ts
      | [] => parse_primary f ts
      end
  end
with parse_primary (fuel : nat) (ts : list Token) : PResult :=
  match fuel with
  | O => None
  | S f =>
      match ts with
      | [] => Some (Err ParseError.Eof)
      | tok :: ts' =>
          match value tok with
          | TokenKind.Number n => Some (Ok (Num n (loc tok), ts'))
          | TokenKind.LParen =>
              match parse_expr f ts' with
              | Some (Ok (e, rtok :: rest)) =>
                  if is_rparen rtok then Some (Ok (e, rest))
                  else Some (Err (ParseError.UnclosedOpenParen tok))
              | Some (Ok (_, [])) => Some (Err (ParseError.UnclosedOpenParen tok))
              | x => x
              end
          | _ => Some (Err (ParseError.NotExpression tok))
          end
      end
  end.

(** Fuel for a whole token sequence. *)
Definition parse_fuel (ts : list Token) : nat := 8 * S (length ts).

(** Modelled from the spec: [parser.rs::parse] is not among the sources.
    A complete expression followed by further tokens fails with
    [RedundantExpression] on the first of them. *)
Definition parse (ts : list Token) : option (result Ast ParseError.t) :=
  match parse_expr (parse_fuel ts) ts with
  | Some (Ok (e, [])) => Some (Ok e)
  | Some (Ok (_, tok :: _)) => Some (Err (ParseError.RedundantExpression tok))
  | Some (Err e) => Some (Err e)
  | None => None
  end.

(* ------------------------------------------------------------------ *)
(** ** Interpreter *)

(** Modelled from the spec: [interpreter.rs] is not among the sources.
    Section 4.3: numbers evaluate to themselves, unary minus negates,
    [+ - *] evaluate the left operand and then the right one; a division
    evaluates its right operand first and fails with [DivisionByZero],
    located on the whole division node, when it is zero.  Values are
    unbounded integers (the spec leaves overflow open) and division
    truncates toward zero, as Rust's integer division does. *)
Fixpoint eval (e : Ast) : result Z InterpreterError :=
  match e with
  | Num n _ => Ok (Z.of_nat n)
  | UniOp UniOpKind.Minus e _ =>
      match eval e with
      | Ok v => Ok (- v)%Z
      | Err x => Err x
      end
  | BinOp BinOpKind.Div l r lc =>
      match eval r with
      | Err x => Err x
      | Ok rv =>
          if Z.eqb rv 0 then Err (mkAnnot InterpreterErrorKind.DivisionByZero lc)
          else
            match eval l with
            | Ok lv => Ok (Z.quot lv rv)
            | Err x => Err x
            end
      end
  | BinOp op l r _ =>
      match eval l with
      | Err x => Err x
      | Ok lv =>
          match eval r with
          | Err x => Err x
          | Ok rv =>
              Ok (match op with
                  | BinOpKind.Add => lv + rv
                  | BinOpKind.Sub => lv - rv
                  | _ => lv * rv
                  end)%Z
          end
      end
  end.

(** Lexing, parsing and evaluating one input line. *)
Inductive LineOutcome : Type :=
| LineLexError (e : LexError)
| LineParseError (e : ParseError.t)
| LineInterpreterError (e : InterpreterError)
| LineValue (v : Z)
| LineOutOfFuel.

Definition run_line (input : string) : LineOutcome :=
  match lex input with
  | Err e => LineLexError e
  | Ok ts =>
      match parse ts with
      | None => LineOutOfFuel
      | Some (Err e) => LineParseError e
      | Some (Ok ast) =>
          match eval ast with
          | Err e => LineInterpreterError e
          | Ok v => LineValue v
          end
      end
  end.

(* ------------------------------------------------------------------ *)
(** ** Operand chains

    [t0 o1 t1 ... ok tk]: operand token sequences separated by operator
    tokens of one precedence level, each operator token [o] recorded with
    the operator [op] it stands for and the tree [e] of the operand after
    it. *)

Record ChainLink : Type := mkLink {
  link_tok : Token;
  link_op : BinOpKind.t;
  link_tokens : list Token;
  link_ast : Ast
}.

Definition chain_tokens (t0 : list Token) (links : list ChainLink) : list Token :=
  t0 ++ flat_map (fun k => link_tok k :: link_tokens k) links.

(** The left-leaning tree [(((e0 o1 e1) o2 e2) ... ok ek)]. *)
Definition left_fold (e0 : Ast) (links : list ChainLink) : Ast :=
  fold_left (fun acc k => mk_binop (link_op k) acc (link_ast k)) links e0.

(** Arithmetic of one operator; [None] on a division by zero. *)
Definition apply_op (op : BinOpKind.t) (a b : Z) : option Z :=
  match op with
  | BinOpKind.Add => Some (a + b)%Z
  | BinOpKind.Sub => Some (a - b)%Z
  | BinOpKind.Mult => Some (a * b)%Z
  | BinOpKind.Div => if Z.eqb b 0 then None else Some (Z.quot a b)
  end.

(** [v0 o1 v1 ... ok vk] computed from left to right. *)
Fixpoint fold_values (v0 : Z) (ops : list (BinOpKind.t * Z)) : option Z :=
  match ops with
  | [] => Some v0
  | (op, v) :: ops' =>
      match apply_op op v0 v with
      | Some w => fold_values w ops'
      | None => None
      end
  end.

(* ------------------------------------------------------------------ *)
(** ** Digit strings *)

(** [s] consists of ASCII decimal digits only. *)
Fixpoint all_digits (s : string) : bool :=
  match s with
  | EmptyString => true
  | String c s' => match digit_value c with Some _ => all_digits s' | None => false end
  end.

(* ------------------------------------------------------------------ *)
(** ** [main.rs]: the read loop

    [lines.next()] on [BufReader::lines] yields a line, an I/O error, or
    [None] at the end of the input; the input is the list of what
    successive calls yield before [None].  Standard output is the list of
    writes and flushes performed; each write is taken to succeed in full
    (a failing write would make [prompt(..).unwrap()] panic). *)

Inductive ReadItem : Type :=
| LineOk (s : string)
| LineErr.

Inductive StdoutEvent : Type :=
| Write (s : string)
| Flush.

(** [fn prompt(s: &str)]: write [s], then flush. *)
Definition prompt (s : string) : list StdoutEvent := [Write s; Flush].

Section Main.
(** The text [println!("{:?}", token)] prints for the line [line], where
    [token = lexer::lex(&line)] ([lexer.rs] is not among the sources). *)
Variable render : string -> string.

(** [fn main()]: [loop { prompt("> ").unwrap(); if let Some(Ok(line)) =
    lines.next() { ... println!(..) } else { break } }] *)
Fixpoint main_loop (lines : list ReadItem) : list StdoutEvent :=
  prompt "> " ++
  match lines with
  | LineOk line :: rest => Write (render line ++ String (ascii_of_nat 10) EmptyString) :: main_loop rest
  | _ => []
  end.
End Main.

(* ================================================================== *)
(** * Properties *)

(** ** Parser: more fuel changes no outcome *)

Ltac mono_calls I1 I2 I3 I4 I5 I6 I7 :=
  repeat (simpl in *; match goal with
  | H : Some _ = Some _ |- _ => injection H as <-; reflexivity
  | H : context [parse_expr ?n ?ts] |- _ =>
      let E := fresh "E" in
      destruct (parse_expr n ts) eqn:E; [rewrite (I1 _ _ E) | discriminate H]
  | H : context [parse_addsub ?n ?ts] |- _ =>
      let E := fresh "E" in
      destruct (parse_addsub n ts) eqn:E; [rewrite (I2 _ _ E) | discriminate H]
  | H : context [addsub_loop ?n ?e ?ts] |- _ =>
      let E := fresh "E" in
      destruct (addsub_loop n e ts) eqn:E; [rewrite (I3 _ _ _ E) | discriminate H]
  | H : context [parse_muldiv ?n ?ts] |- _ =>
      let E := fresh "E" in
      destruct (parse_muldiv n ts) eqn:E; [rewrite (I4 _ _ E) | discriminate H]
  | H : context [muldiv_loop ?n ?e ?ts] |- _ =>
      let E := fresh "E" in
      destruct (muldiv_loop n e ts) eqn:E; [rewrite (I5 _ _ _ E) | discriminate H]
  | H : context [parse_unary ?n ?ts] |- _ =>
      let E := fresh "E" in
      destruct (parse_unary n ts) eqn:E; [rewrite (I6 _ _ E) | discriminate H]
  | H : context [parse_primary ?n ?ts] |- _ =>
      let E := fresh "E" in
      destruct (parse_primary n ts) eqn:E; [rewrite (I7 _ _ E) | discriminate H]
  | H : context [match ?x with _ => _ end] |- _ => destruct x
  end).

Lemma parse_fuel_mono : forall n m, n <= m ->
  (forall ts r, parse_expr n ts = Some r -> parse_expr m ts = Some r) /\
  (forall ts r, parse_addsub n ts = Some r -> parse_addsub m ts = Some r) /\
  (forall e ts r, addsub_loop n e ts = Some r -> addsub_loop m e ts = Some r) /\
  (forall ts r, parse_muldiv n ts = Some r -> parse_muldiv m ts = Some r) /\
  (forall e ts r, muldiv_loop n e ts = Some r -> muldiv_loop m e ts = Some r) /\
  (forall ts r, parse_unary n ts = Some r -> parse_unary m ts = Some r) /\
  (forall ts r, parse_primary n ts = Some r -> parse_primary m ts = Some r).
Proof.
  induction n as [|n IH]; intros m Hle.
  - repeat split; intros; discriminate.
  - destruct m as [|m]; [lia|].
    destruct (IH m ltac:(lia)) as (I1 & I2 & I3 & I4 & I5 & I6 & I7).
    repeat split; intros * H; mono_calls I1 I2 I3 I4 I5 I6 I7.
Qed.

(** ** Parser: tokens appended after a parsed prefix

    A parse that stops before the end of its tokens has only looked at
    tokens it was given, so appending tokens does not change it.  A parse
    that consumed everything is unchanged by appended tokens that cannot
    continue it: at the [addsub] level neither kind of operator, at the
    [muldiv] level no [*] or [/]. *)

Definition addsub_stop (s : list Token) : Prop :=
  match s with
  | [] => True
  | t :: _ => addsub_op t = None /\ muldiv_op t = None
  end.

Definition muldiv_stop (s : list Token) : Prop :=
  match s with
  | [] => True
  | t :: _ => muldiv_op t = None
  end.

Lemma addsub_stop_muldiv_stop s : addsub_stop s -> muldiv_stop s.
Proof. destruct s; simpl; tauto. Qed.

Lemma addsub_loop_nil n a e r :
  addsub_loop n a [] = Some (Ok (e, r)) -> r = [].
Proof. destruct n; simpl; congruence. Qed.

Lemma muldiv_loop_nil n a e r :
  muldiv_loop n a [] = Some (Ok (e, r)) -> r = [].
Proof. destruct n; simpl; congruence. Qed.

Lemma parse_extend : forall n,
  (forall ts e r s, parse_expr n ts = Some (Ok (e, r)) ->
     r <> [] \/ addsub_stop s ->
     parse_expr n (ts ++ s)%list = Some (Ok (e, (r ++ s)%list))) /\
  (forall ts e r s, parse_addsub n ts = Some (Ok (e, r)) ->
     r <> [] \/ addsub_stop s ->
     parse_addsub n (ts ++ s)%list = Some (Ok (e, (r ++ s)%list))) /\
  (forall a ts e r s, addsub_loop n a ts = Some (Ok (e, r)) ->
     r <> [] \/ addsub_stop s ->
     addsub_loop n a (ts ++ s)%list = Some (Ok (e, (r ++ s)%list))) /\
  (forall ts e r s, parse_muldiv n ts = Some (Ok (e, r)) ->
     r <> [] \/ muldiv_stop s ->
     parse_muldiv n (ts ++ s)%list = Some (Ok (e, (r ++ s)%list))) /\
  (forall a ts e r s, muldiv_loop n a ts = Some (Ok (e, r)) ->
     r <> [] \/ muldiv_stop s ->
     muldiv_loop n a (ts ++ s)%list = Some (Ok (e, (r ++ s)%list))) /\
  (forall ts e r s, parse_unary n ts = Some (Ok (e, r)) ->
     parse_unary n (ts ++ s)%list = Some (Ok (e, (r ++ s)%list))) /\
  (forall ts e r s, parse_primary n ts = Some (Ok (e, r)) ->
     parse_primary n (ts ++ s)%list = Some (Ok (e, (r ++ s)%list))).
Proof.
  induction n as [|n IH].
  { repeat split; intros; discriminate. }
  destruct IH as (J1 & J2 & J3 & J4 & J5 & J6 & J7).
  repeat split.
  - (* expr *)
    intros ts e r s H Hs; simpl in *; auto.
  - (* addsub *)
    intros ts e r s H Hs; simpl in *.
    destruct (parse_muldiv n ts) as [[[x rest]|err]|] eqn:E; try discriminate.
    assert (Hm : rest <> [] \/ muldiv_stop s).
    { destruct rest as [|t rest]; [|left; discriminate].
      right; apply addsub_stop_muldiv_stop.
      rewrite (addsub_loop_nil _ _ _ _ H) in Hs.
      destruct Hs as [Hs|Hs]; [congruence|exact Hs]. }
    rewrite (J4 _ _ _ _ E Hm); simpl; auto.
  - (* addsub_loop *)
    intros a ts e r s H Hs; simpl in *.
    destruct ts as [|tok ts'].
    + injection H as <- <-; simpl.
      destruct Hs as [Hs|Hs]; [congruence|].
      destruct s as [|t s']; [reflexivity|].
      destruct Hs as [Ha _]; simpl; rewrite Ha; reflexivity.
    + simpl. destruct (addsub_op tok) as [op|] eqn:Eop.
      2: { injection H as <- <-; reflexivity. }
      destruct (parse_muldiv n ts') as [[[x rest]|err]|] eqn:E; try discriminate.
      assert (Hm : rest <> [] \/ muldiv_stop s).
      { destruct rest as [|t rest]; [|left; discriminate].
        right; apply addsub_stop_muldiv_stop.
        rewrite (addsub_loop_nil _ _ _ _ H) in Hs.
        destruct Hs as [Hs|Hs]; [congruence|exact Hs]. }
      rewrite (J4 _ _ _ _ E Hm); simpl; auto.
  - (* muldiv *)
    intros ts e r s H Hs; simpl in *.
    destruct (parse_unary n ts) as [[[x rest]|err]|] eqn:E; try discriminate.
    rewrite (J6 _ _ _ s E); simpl; auto.
  - (* muldiv_loop *)
    intros a ts e r s H Hs; simpl in *.
    destruct ts as [|tok ts'].
    + injection H as <- <-; simpl.
      destruct Hs as [Hs|Hs]; [congruence|].
      destruct s as [|t s']; [reflexivity|].
      simpl in Hs; simpl; rewrite Hs; reflexivity.
    + simpl. destruct (muldiv_op tok) as [op|] eqn:Eop.
      2: { injection H as <- <-; reflexivity. }
      destruct (parse_unary n ts') as [[[x rest]|err]|] eqn:E; try discriminate.
      rewrite (J6 _ _ _ s E); simpl; auto.
  - (* unary *)
    intros ts e r s H; simpl in *.
    destruct ts as [|tok ts'].
    + destruct n; discriminate.
    + simpl. destruct (is_minus tok).
      * destruct (parse_unary n ts') as [[[x rest]|err]|] eqn:E; try discriminate.
        rewrite (J6 _ _ _ s E). injection H as <- <-; reflexivity.
      * exact (J7 _ _ _ s H).
  - (* primary *)
    intros ts e r s H; simpl in *.
    destruct ts as [|tok ts']; [discriminate|].
    simpl. destruct (value tok); try discriminate.
    + injection H as <- <-; reflexivity.
    + destruct (parse_expr n ts') as [[[x [|rtok rest]]|err]|] eqn:E; try discriminate.
      assert (Hr : rtok :: rest <> []) by discriminate.
      rewrite (J1 _ _ _ s E (or_introl Hr)); simpl.
      destruct (is_rparen rtok); [injection H as <- <-; reflexivity|discriminate].
Qed.

(** ** Operand chains parse to left-leaning trees *)

Lemma addsub_op_not_muldiv t op : addsub_op t = Some op -> muldiv_op t = None.
Proof. unfold addsub_op, muldiv_op; destruct (value t); congruence. Qed.

Lemma links_head_muldiv_stop (links : list ChainLink) :
  Forall (fun k => addsub_op (link_tok k) = Some (link_op k)) links ->
  muldiv_stop (flat_map (fun k => link_tok k :: link_tokens k) links).
Proof.
  intros H; destruct H as [|k ks Hk _]; simpl; [exact I|].
  exact (addsub_op_not_muldiv _ _ Hk).
Qed.

Lemma addsub_loop_chain n : forall links a m,
  Forall (fun k => addsub_op (link_tok k) = Some (link_op k) /\
                   parse_muldiv n (link_tokens k) = Some (Ok (link_ast k, []))) links ->
  n + length links < m ->
  addsub_loop m a (flat_map (fun k => link_tok k :: link_tokens k) links)
  = Some (Ok (left_fold a links, [])).
Proof.
  induction links as [|k ks IH]; intros a m Hf Hm; destruct m as [|m]; try lia.
  - reflexivity.
  - inversion Hf as [|? ? [Hop Hp] Hks]; subst; simpl in Hm.
    cbn -[addsub_op parse_muldiv]; rewrite Hop.
    assert (Hs : muldiv_stop (flat_map (fun k => link_tok k :: link_tokens k) ks)).
    { apply links_head_muldiv_stop.
      exact (Forall_impl _ (fun k H => proj1 H) Hks). }
    assert (Hp' := proj1 (proj2 (proj2 (proj2 (parse_fuel_mono n m ltac:(lia))))) _ _ Hp).
    rewrite (proj1 (proj2 (proj2 (proj2 (parse_extend m)))) _ _ _ _ Hp' (or_intror Hs)).
    simpl; apply IH; [exact Hks|lia].
Qed.

Lemma muldiv_loop_chain n : forall links a m,
  Forall (fun k => muldiv_op (link_tok k) = Some (link_op k) /\
                   parse_unary n (link_tokens k) = Some (Ok (link_ast k, []))) links ->
  n + length links < m ->
  muldiv_loop m a (flat_map (fun k => link_tok k :: link_tokens k) links)
  = Some (Ok (left_fold a links, [])).
Proof.
  induction links as [|k ks IH]; intros a m Hf Hm; destruct m as [|m]; try lia.
  - reflexivity.
  - inversion Hf as [|? ? [Hop Hp] Hks]; subst; simpl in Hm.
    cbn -[muldiv_op parse_unary]; rewrite Hop.
    assert (Hp' := proj1 (proj2 (proj2 (proj2 (proj2 (proj2 (parse_fuel_mono n m ltac:(lia)))))))
                     _ _ Hp).
    rewrite (proj1 (proj2 (proj2 (proj2 (proj2 (proj2 (parse_extend m)))))) _ _ _ _ Hp').
    simpl; apply IH; [exact Hks|lia].
Qed.

(** ** Evaluation of a left-leaning tree *)

Lemma eval_mk_binop op a b x y w :
  eval a = Ok x -> eval b = Ok y -> apply_op op x y = Some w ->
  eval (mk_binop op a b) = Ok w.
Proof.
  intros Ha Hb Hw; unfold mk_binop; destruct op; simpl in *;
    rewrite ?Ha, ?Hb; try congruence.
  destruct (Z.eqb y 0); congruence.
Qed.

Lemma eval_left_fold : forall links vs e0 v0 v,
  eval e0 = Ok v0 ->
  Forall2 (fun k x => eval (link_ast k) = Ok x) links vs ->
  fold_values v0 (combine (map link_op links) vs) = Some v ->
  eval (left_fold e0 links) = Ok v.
Proof.
  intros links vs e0 v0 v H0 H2; revert e0 v0 H0.
  induction H2 as [|k x ks xs Hk Hks IH]; intros e0 v0 H0 Hv; simpl in *.
  - congruence.
  - destruct (apply_op (link_op k) v0 x) as [w|] eqn:Ew; [|discriminate].
    apply (IH (mk_binop (link_op k) e0 (link_ast k)) w); [|exact Hv].
    exact (eval_mk_binop _ _ _ _ _ _ H0 Hk Ew).
Qed.

(** ** Rendering helpers *)

Lemma length_append_str s1 s2 :
  String.length (s1 ++ s2) = String.length s1 + String.length s2.
Proof. induction s1; simpl; auto. Qed.

Lemma length_repeat_str c n :
  String.length (repeat_str (String c EmptyString) n) = n.
Proof. induction n; simpl; auto. Qed.

Lemma get_repeat_str c n i :
  i < n -> String.get i (repeat_str (String c EmptyString) n) = Some c.
Proof.
  revert i; induction n as [|n IH]; intros i Hi; [lia|].
  destruct i; simpl; [reflexivity|apply IH; lia].
Qed.

(** The annotation line [" ".repeat(a) + "^".repeat(b - a)] for [a <= b]:
    [b] characters, spaces below [a] and carets from [a] on. *)
Lemma caret_line_spec a b :
  a <= b ->
  let line := repeat_str " " a ++ repeat_str "^" (b - a) in
  String.length line = b /\
  (forall i, i < a -> String.get i line = Some " "%char) /\
  (forall i, a <= i < b -> String.get i line = Some "^"%char).
Proof.
  intros Hab line; subst line; repeat split.
  - rewrite length_append_str, !length_repeat_str; lia.
  - intros i Hi. rewrite <- append_correct1 by (rewrite length_repeat_str; lia).
    apply get_repeat_str; exact Hi.
  - intros i Hi. replace i with ((i - a) + String.length (repeat_str " " a))
      by (rewrite length_repeat_str; lia).
    rewrite <- append_correct2. apply get_repeat_str; lia.
Qed.

Lemma print_annot_ok input l out :
  loc_0 l <= loc_1 l ->
  print_annot input l out =
  (Some tt, (out ++ [input; (repeat_str " " (loc_0 l) ++ repeat_str "^" (loc_1 l - loc_0 l))%string])%list).
Proof.
  intros H; unfold print_annot, io_bind, eprintln, usize_sub.
  apply Nat.leb_le in H; rewrite H; unfold io_ret.
  rewrite <- app_assoc; reflexivity.
Qed.

Lemma report_ok msg input l out :
  loc_0 l <= loc_1 l ->
  report msg input l out =
  (Some tt, (out ++ [msg; input;
     (repeat_str " " (loc_0 l) ++ repeat_str "^" (loc_1 l - loc_0 l))%string])%list).
Proof.
  intros H; unfold report, io_bind at 1, eprintln at 1.
  rewrite (print_annot_ok _ _ _ H), <- app_assoc; reflexivity.
Qed.

(** ** The [while let] loop of [show_trace] *)

Section TraceProofs.
Context {E : Type} (display : E -> string) (source : E -> option E).

Let caused (c : E) : string := "caused by " ++ display c.

Lemma trace_loop_of_chain : forall cs e fuel out,
  cause_chain source e cs -> length cs <= fuel ->
  trace_loop display source fuel (source e) out
  = (Some tt, (out ++ map caused cs)%list).
Proof.
  induction cs as [|c cs IH]; intros e fuel out Hc Hf.
  - inversion Hc as [? Hn|]; subst.
    rewrite Hn, app_nil_r; destruct fuel; reflexivity.
  - inversion Hc as [|? ? ? Hs Hc']; subst.
    rewrite Hs. destruct fuel as [|fuel]; simpl in Hf; [lia|].
    simpl; unfold io_bind, eprintln.
    rewrite (IH c fuel _ Hc' ltac:(lia)), <- app_assoc; reflexivity.
Qed.

Lemma chain_of_trace_loop : forall fuel e out out',
  trace_loop display source fuel (source e) out = (Some tt, out') ->
  exists cs, cause_chain source e cs /\ out' = (out ++ map caused cs)%list.
Proof.
  induction fuel as [|fuel IH]; intros e out out' H; simpl in H;
    destruct (source e) as [c|] eqn:Es.
  - discriminate.
  - injection H as <-; exists []; split; [constructor; exact Es|].
    rewrite app_nil_r; reflexivity.
  - unfold io_bind, eprintln in H.
    destruct (IH c _ _ H) as (cs & Hc & ->).
    exists (c :: cs); split; [econstructor; eauto|].
    rewrite <- app_assoc; reflexivity.
  - injection H as <-; exists []; split; [constructor; exact Es|].
    rewrite app_nil_r; reflexivity.
Qed.
End TraceProofs.

(* ================================================================== *)
(** * Claims *)

(** C1: for every composite error and every input, [show_diagnostic]
    prints the error's message and underlines the location stored in the
    lexer error, or, for the parser errors [UnexpectedToken],
    [NotExpression], [NotOperator] and [UnclosedOpenParen], the location
    of the embedded token. *)
Theorem show_diagnostic_token_location : forall input,
  (forall le, show_diagnostic (Lexer le) input
              = report (fmt_lex_error le) input (loc le)) /\
  (forall tok, show_diagnostic (Parser (ParseError.UnexpectedToken tok)) input
               = report (fmt_parse_error (ParseError.UnexpectedToken tok)) input (loc tok)) /\
  (forall tok, show_diagnostic (Parser (ParseError.NotExpression tok)) input
               = report (fmt_parse_error (ParseError.NotExpression tok)) input (loc tok)) /\
  (forall tok, show_diagnostic (Parser (ParseError.NotOperator tok)) input
               = report (fmt_parse_error (ParseError.NotOperator tok)) input (loc tok)) /\
  (forall tok, show_diagnostic (Parser (ParseError.UnclosedOpenParen tok)) input
               = report (fmt_parse_error (ParseError.UnclosedOpenParen tok)) input (loc tok)).
Proof. intros input; repeat split. Qed.

(** C2: for [RedundantExpression(tok)] the underlined location starts at
    the token's start and ends at the byte length of the input; when the
    token starts within the input, the caret line is that many spaces
    followed by carets up to the end of the input. *)
Theorem show_diagnostic_redundant_widened : forall input tok,
  show_diagnostic (Parser (ParseError.RedundantExpression tok)) input
  = report (fmt_parse_error (ParseError.RedundantExpression tok)) input
      (mkLoc (loc_0 (loc tok)) (String.length input)) /\
  (loc_0 (loc tok) <= String.length input -> forall out,
   show_diagnostic (Parser (ParseError.RedundantExpression tok)) input out
   = (Some tt, (out ++ [fmt_parse_error (ParseError.RedundantExpression tok); input;
        (repeat_str " " (loc_0 (loc tok))
         ++ repeat_str "^" (String.length input - loc_0 (loc tok)))%string])%list)).
Proof.
  intros input tok; split; [reflexivity|].
  intros H out; exact (report_ok _ input (mkLoc _ _) out H).
Qed.

(** C3: for the parser error [Eof] ([UnexpectedEndOfInput]) on an input of
    byte length [n] the underlined location is [(n, n + 1)]. *)
Theorem show_diagnostic_eof_past_end : forall input,
  show_diagnostic (Parser ParseError.Eof) input
  = report (fmt_parse_error ParseError.Eof) input
      (mkLoc (String.length input) (String.length input + 1)).
Proof. reflexivity. Qed.

Lemma show_diagnostic_c2_witness :
  loc_0 (loc (mkAnnot (TokenKind.Number 2) (mkLoc 2 3))) <= String.length "1 2" /\
  show_diagnostic
    (Parser (ParseError.RedundantExpression (mkAnnot (TokenKind.Number 2) (mkLoc 2 3))))
    "1 2" []
  = (Some tt, ([] ++ [fmt_parse_error
                        (ParseError.RedundantExpression
                           (mkAnnot (TokenKind.Number 2) (mkLoc 2 3)));
                      "1 2";
                      (repeat_str " " 2 ++ repeat_str "^" (String.length "1 2" - 2))%string])%list).
Proof.
  split; [simpl; lia|].
  apply (proj2 (show_diagnostic_redundant_widened "1 2"
                  (mkAnnot (TokenKind.Number 2) (mkLoc 2 3)))).
  simpl; lia.
Defined.

(** C4: whenever the reported location [(start, end)] has [start <= end],
    the diagnostic printer writes the error's message, then the input, then
    a line of exactly [end] characters: [start] spaces followed by
    [end - start] carets.  This holds for the composite error
    ([Error::show_diagnostic]) and for the interpreter error
    ([InterpreterError::show_diagnostic]), which share [print_annot]. *)
Theorem show_diagnostic_caret_line :
  (forall e input d l out,
     diagnostic_target e input = (d, l) -> loc_0 l <= loc_1 l ->
     exists line,
       show_diagnostic e input out = (Some tt, (out ++ [dyn_display d; input; line])%list) /\
       String.length line = loc_1 l /\
       (forall i, i < loc_0 l -> String.get i line = Some " "%char) /\
       (forall i, loc_0 l <= i < loc_1 l -> String.get i line = Some "^"%char)) /\
  (forall ie input out,
     loc_0 (loc ie) <= loc_1 (loc ie) ->
     exists line,
       show_interpreter_diagnostic ie input out
       = (Some tt, (out ++ [fmt_interpreter_error ie; input; line])%list) /\
       String.length line = loc_1 (loc ie) /\
       (forall i, i < loc_0 (loc ie) -> String.get i line = Some " "%char) /\
       (forall i, loc_0 (loc ie) <= i < loc_1 (loc ie) -> String.get i line = Some "^"%char)).
Proof.
  split.
  - intros e input d l out Ht Hl.
    eexists; split.
    + unfold show_diagnostic; rewrite Ht. exact (report_ok _ _ _ out Hl).
    + exact (caret_line_spec _ _ Hl).
  - intros ie input out Hl.
    eexists; split.
    + exact (report_ok _ _ _ out Hl).
    + exact (caret_line_spec _ _ Hl).
Qed.

Lemma show_diagnostic_c4_witness :
  diagnostic_target (Parser (ParseError.NotExpression (mkAnnot TokenKind.RParen (mkLoc 2 3))))
    "1+)" = (DParseError (ParseError.NotExpression (mkAnnot TokenKind.RParen (mkLoc 2 3))),
             mkLoc 2 3) /\
  2 <= 3 /\
  exists line,
    show_diagnostic (Parser (ParseError.NotExpression (mkAnnot TokenKind.RParen (mkLoc 2 3))))
      "1+)" [] = (Some tt, ([] ++ [dyn_display (DParseError (ParseError.NotExpression
                                    (mkAnnot TokenKind.RParen (mkLoc 2 3)))); "1+)"; line])%list) /\
    String.length line = 3 /\
    (forall i, i < 2 -> String.get i line = Some " "%char) /\
    (forall i, 2 <= i < 3 -> String.get i line = Some "^"%char).
Proof.
  split; [reflexivity|]. split; [lia|].
  apply (proj1 show_diagnostic_caret_line _ _ _ (mkLoc 2 3)); [reflexivity|simpl; lia].
Defined.

(** C5: [show_trace] prints the error's own message, then one
    ["caused by "] line for each error reached by following [source], and
    stops exactly at the first error without a source: its output is
    precisely that when the chain fits in the loop's fuel, and any
    terminating run of the loop printed a complete chain. *)
Theorem show_trace_walks_cause_chain :
  forall (E : Type) (display : E -> string) (source : E -> option E),
  (forall e cs fuel out,
     cause_chain source e cs -> length cs <= fuel ->
     show_trace_gen display source fuel e out
     = (Some tt, (out ++ display e :: map (fun c => ("caused by " ++ display c)%string) cs)%list)) /\
  (forall e fuel out out',
     show_trace_gen display source fuel e out = (Some tt, out') ->
     exists cs, cause_chain source e cs /\
       out' = (out ++ display e :: map (fun c => ("caused by " ++ display c)%string) cs)%list).
Proof.
  intros E display source; split.
  - intros e cs fuel out Hc Hf; unfold show_trace_gen, io_bind at 1, eprintln at 1.
    rewrite (trace_loop_of_chain display source cs e fuel _ Hc Hf), <- app_assoc.
    reflexivity.
  - intros e fuel out out' H; unfold show_trace_gen, io_bind at 1, eprintln at 1 in H.
    destruct (chain_of_trace_loop display source fuel e _ _ H) as (cs & Hc & ->).
    exists cs; split; [exact Hc|rewrite <- app_assoc; reflexivity].
Qed.

Lemma show_trace_c5_witness :
  cause_chain dyn_source (DError (Parser ParseError.Eof)) [DParseError ParseError.Eof] /\
  length [DParseError ParseError.Eof] <= 1 /\
  show_trace_gen dyn_display dyn_source 1 (DError (Parser ParseError.Eof)) []
  = (Some tt, ([] ++ dyn_display (DError (Parser ParseError.Eof))
                 :: map (fun c => ("caused by " ++ dyn_display c)%string)
                        [DParseError ParseError.Eof])%list).
Proof.
  assert (Hc : cause_chain dyn_source (DError (Parser ParseError.Eof))
                 [DParseError ParseError.Eof])
    by (econstructor; [reflexivity|constructor; reflexivity]).
  split; [exact Hc|]. split; [simpl; lia|].
  apply (proj1 (show_trace_walks_cause_chain DynError dyn_display dyn_source)); [exact Hc|simpl; lia].
Defined.

(** C6: converting a lexer or parser error into [Error] and asking for its
    [source] gives back the original error. *)
Theorem error_from_source_roundtrip :
  (forall le, error_source (error_from_lex le) = Some (DLexError le)) /\
  (forall pe, error_source (error_from_parse pe) = Some (DParseError pe)).
Proof. split; reflexivity. Qed.

(** C7: a division whose right operand evaluates to zero fails with
    [DivisionByZero] located on the whole division node; the node the
    parser builds for [a / b] spans both operands, and evaluating ["1/0"]
    fails with [DivisionByZero] at [0-3]. *)
Theorem eval_div_by_zero_node_span :
  (forall l r lc, eval r = Ok 0%Z ->
     eval (BinOp BinOpKind.Div l r lc)
     = Err (mkAnnot InterpreterErrorKind.DivisionByZero lc)) /\
  (forall l r, eval r = Ok 0%Z ->
     eval (mk_binop BinOpKind.Div l r)
     = Err (mkAnnot InterpreterErrorKind.DivisionByZero
              (loc_merge (ast_loc l) (ast_loc r)))) /\
  run_line "1/0"
  = LineInterpreterError (mkAnnot InterpreterErrorKind.DivisionByZero (mkLoc 0 3)).
Proof.
  split; [|split]; [intros l r lc H| intros l r H|reflexivity];
    unfold mk_binop; simpl; rewrite H; reflexivity.
Qed.

Lemma eval_div_by_zero_c7_witness :
  eval (Num 0 (mkLoc 2 3)) = Ok 0%Z /\
  eval (BinOp BinOpKind.Div (Num 1 (mkLoc 0 1)) (Num 0 (mkLoc 2 3)) (mkLoc 0 3))
  = Err (mkAnnot InterpreterErrorKind.DivisionByZero (mkLoc 0 3)).
Proof.
  split; [reflexivity|].
  apply (proj1 eval_div_by_zero_node_span); reflexivity.
Defined.

(** C8: operators of one precedence level associate to the left.  A chain
    [t0 o1 t1 ... ok tk] of operands separated by [+]/[-] (each operand
    parsed completely at the [muldiv] level), or by [*]/[/] (each operand
    parsed completely at the [unary] level), parses to the left-leaning
    tree [(((e0 o1 e1) o2 e2) ... ok ek)]; evaluating that tree computes
    the operators from left to right; and ["8-3-2"] evaluates to [3]. *)
Theorem binop_chains_left_assoc :
  (forall n t0 e0 links m,
     parse_muldiv n t0 = Some (Ok (e0, [])) ->
     Forall (fun k => addsub_op (link_tok k) = Some (link_op k) /\
                      parse_muldiv n (link_tokens k) = Some (Ok (link_ast k, []))) links ->
     n + length links < m ->
     parse_addsub (S m) (chain_tokens t0 links) = Some (Ok (left_fold e0 links, []))) /\
  (forall n t0 e0 links m,
     parse_unary n t0 = Some (Ok (e0, [])) ->
     Forall (fun k => muldiv_op (link_tok k) = Some (link_op k) /\
                      parse_unary n (link_tokens k) = Some (Ok (link_ast k, []))) links ->
     n + length links < m ->
     parse_muldiv (S m) (chain_tokens t0 links) = Some (Ok (left_fold e0 links, []))) /\
  (forall links vs e0 v0 v,
     eval e0 = Ok v0 ->
     Forall2 (fun k x => eval (link_ast k) = Ok x) links vs ->
     fold_values v0 (combine (map link_op links) vs) = Some v ->
     eval (left_fold e0 links) = Ok v) /\
  run_line "8-3-2" = LineValue 3%Z.
Proof.
  split; [|split; [|split]].
  - intros n t0 e0 links m H0 Hf Hm; unfold chain_tokens; simpl.
    assert (Hs := links_head_muldiv_stop links
                    (Forall_impl _ (fun k H => proj1 H) Hf)).
    assert (H0' := proj1 (proj2 (proj2 (proj2 (parse_fuel_mono n m ltac:(lia))))) _ _ H0).
    rewrite (proj1 (proj2 (proj2 (proj2 (parse_extend m)))) _ _ _ _ H0' (or_intror Hs)).
    simpl; exact (addsub_loop_chain n links e0 m Hf Hm).
  - intros n t0 e0 links m H0 Hf Hm; unfold chain_tokens; simpl.
    assert (H0' := proj1 (proj2 (proj2 (proj2 (proj2 (proj2 (parse_fuel_mono n m ltac:(lia)))))))
                     _ _ H0).
    rewrite (proj1 (proj2 (proj2 (proj2 (proj2 (proj2 (parse_extend m)))))) _ _ _ _ H0').
    simpl; exact (muldiv_loop_chain n links e0 m Hf Hm).
  - exact eval_left_fold.
  - reflexivity.
Qed.

Lemma binop_chains_c8_witness :
  let tok k a b := mkAnnot k (mkLoc a b) in
  let sub_links := [mkLink (tok TokenKind.Minus 1 2) BinOpKind.Sub
                      [tok (TokenKind.Number 3) 2 3] (Num 3 (mkLoc 2 3));
                    mkLink (tok TokenKind.Minus 3 4) BinOpKind.Sub
                      [tok (TokenKind.Number 2) 4 5] (Num 2 (mkLoc 4 5))] in
  let mul_links := [mkLink (tok TokenKind.Slash 1 2) BinOpKind.Div
                      [tok (TokenKind.Number 2) 2 3] (Num 2 (mkLoc 2 3));
                    mkLink (tok TokenKind.Asterisk 3 4) BinOpKind.Mult
                      [tok (TokenKind.Number 3) 4 5] (Num 3 (mkLoc 4 5))] in
  parse_addsub 7 (chain_tokens [tok (TokenKind.Number 8) 0 1] sub_links)
  = Some (Ok (left_fold (Num 8 (mkLoc 0 1)) sub_links, [])) /\
  parse_muldiv 6 (chain_tokens [tok (TokenKind.Number 8) 0 1] mul_links)
  = Some (Ok (left_fold (Num 8 (mkLoc 0 1)) mul_links, [])) /\
  eval (left_fold (Num 8 (mkLoc 0 1)) sub_links) = Ok 3%Z.
Proof.
  intros tok sub_links mul_links.
  destruct binop_chains_left_assoc as (Ha & Hm & He & _).
  split; [|split].
  - apply (Ha 3); [reflexivity| |simpl; lia].
    repeat constructor.
  - apply (Hm 2); [reflexivity| |simpl; lia].
    repeat constructor.
  - apply (He sub_links [3%Z; 2%Z] _ 8%Z); [reflexivity| |reflexivity].
    repeat constructor.
Defined.

(** C9: the [Display] of a composite error is the constant
    ["parser error"], whichever error it wraps. *)
Theorem error_display_constant : forall e,
  fmt_error e = "parser error" /\ dyn_display (DError e) = "parser error".
Proof. split; reflexivity. Qed.

(** C10: the [source] of a composite error is always present and is a
    lexer or parser error, which has no source of its own: the chain has
    exactly one link and [show_trace] prints exactly two lines, the
    constant message and one ["caused by"] line. *)
Theorem error_cause_chain_single : forall e,
  error_source e <> None /\
  exists c,
    error_source e = Some c /\ dyn_source c = None /\
    cause_chain dyn_source (DError e) [c] /\
    (forall fuel out, 1 <= fuel ->
       show_trace fuel (DError e) out
       = (Some tt, (out ++ ["parser error"; ("caused by " ++ dyn_display c)%string])%list)).
Proof.
  intros e.
  assert (Hc : exists c, error_source e = Some c /\ dyn_source c = None)
    by (destruct e; eexists; split; reflexivity).
  destruct Hc as (c & Hs & Hn).
  split; [congruence|].
  exists c; split; [exact Hs|split; [exact Hn|]].
  assert (Hch : cause_chain dyn_source (DError e) [c])
    by (econstructor; [exact Hs|constructor; exact Hn]).
  split; [exact Hch|].
  intros fuel out Hf.
  unfold show_trace, show_trace_gen, io_bind at 1, eprintln at 1.
  rewrite (trace_loop_of_chain dyn_display dyn_source [c] (DError e) fuel _ Hch Hf).
  rewrite <- app_assoc; reflexivity.
Qed.

Lemma error_cause_chain_c10_witness :
  1 <= 1 /\
  show_trace 1 (DError (Lexer (mkAnnot (LexErrorKind.InvalidChar "$"%char) (mkLoc 2 3)))) []
  = (Some tt, ([] ++ ["parser error";
                      String.append "caused by " (dyn_display
                         (DLexError (mkAnnot (LexErrorKind.InvalidChar "$"%char) (mkLoc 2 3))))])%list).
Proof.
  split; [lia|].
  destruct (error_cause_chain_single
              (Lexer (mkAnnot (LexErrorKind.InvalidChar "$"%char) (mkLoc 2 3))))
    as (_ & c & Hs & _ & _ & Ht).
  simpl in Hs; injection Hs as <-.
  apply Ht; lia.
Defined.
Example run_1_plus_2_times_3 : run_line "1+2*3" = LineValue 7%Z.
Proof. reflexivity. Qed.
Example run_paren : run_line "(1+2)*3" = LineValue 9%Z.
Proof. reflexivity. Qed.
Example run_8_3_2 : run_line "8-3-2" = LineValue 3%Z.
Proof. reflexivity. Qed.
Example run_1_div_0 :
  run_line "1/0" =
  LineInterpreterError (mkAnnot InterpreterErrorKind.DivisionByZero (mkLoc 0 3)).
Proof. reflexivity. Qed.
Example lex_invalid :
  lex "1+$" = Err (mkAnnot (LexErrorKind.InvalidChar "$"%char) (mkLoc 2 3)).
Proof. reflexivity. Qed.
Example parse_unclosed :
  run_line "(1+2" =
  LineParseError (ParseError.UnclosedOpenParen (mkAnnot TokenKind.LParen (mkLoc 0 1))).
Proof. reflexivity. Qed.
Example parse_redundant :
  run_line "1 2" =
  LineParseError (ParseError.RedundantExpression
                    (mkAnnot (TokenKind.Number 2) (mkLoc 2 3))).
Proof. reflexivity. Qed.

(* ================================================================== *)
(** * Further properties of [error.rs] and [main.rs] *)

(** ** Decimal renderings *)

Lemma all_digits_string_of_uint d : all_digits (string_of_uint d) = true.
Proof. induction d; simpl; auto. Qed.

Lemma all_digits_fmt_nat n : all_digits (fmt_nat n) = true.
Proof. apply all_digits_string_of_uint. Qed.

Lemma string_of_uint_inj : forall d1 d2,
  string_of_uint d1 = string_of_uint d2 -> d1 = d2.
Proof.
  induction d1; destruct d2; simpl; intros H; try discriminate;
    try reflexivity; injection H as H; f_equal; auto.
Qed.

Lemma fmt_nat_inj n m : fmt_nat n = fmt_nat m -> n = m.
Proof.
  intros H; apply DecimalNat.Unsigned.to_uint_inj, string_of_uint_inj, H.
Qed.

(** Two digit strings each followed by a separator that is not a digit. *)
Lemma digits_split (sep : ascii) : digit_value sep = None ->
  forall s1 s2 t1 t2, all_digits s1 = true -> all_digits s2 = true ->
  (s1 ++ String sep t1 = s2 ++ String sep t2)%string -> s1 = s2 /\ t1 = t2.
Proof.
  intros Hsep; induction s1 as [|c s1 IH]; destruct s2 as [|c2 s2];
    simpl; intros t1 t2 H1 H2 H.
  - injection H as H; auto.
  - injection H as -> _; rewrite Hsep in H2; discriminate.
  - injection H as <- _; rewrite Hsep in H1; discriminate.
  - injection H as <- H.
    destruct (digit_value c); [|discriminate].
    destruct (IH s2 t1 t2 H1 H2 H) as [-> ->]; auto.
Qed.

(** X1: the rendering ["start-end"] of a location determines it. *)
Theorem fmt_loc_inj : forall l1 l2, fmt_loc l1 = fmt_loc l2 -> l1 = l2.
Proof.
  intros [a1 b1] [a2 b2]; unfold fmt_loc; simpl; intros H.
  destruct (digits_split "-"%char eq_refl _ _ _ _
              (all_digits_fmt_nat a1) (all_digits_fmt_nat a2) H) as [Ha Hb].
  apply fmt_nat_inj in Ha; apply fmt_nat_inj in Hb; subst; reflexivity.
Qed.

Lemma fmt_nat_not_single n c : digit_value c = None ->
  fmt_nat n <> String c EmptyString.
Proof.
  intros Hc H; assert (Hd := all_digits_fmt_nat n); rewrite H in Hd.
  simpl in Hd; rewrite Hc in Hd; discriminate.
Qed.

(** X2: distinct token kinds are rendered differently by [Display]. *)
Theorem fmt_token_kind_inj : forall k1 k2,
  fmt_token_kind k1 = fmt_token_kind k2 -> k1 = k2.
Proof.
  intros [n1| | | | | |] [n2| | | | | |]; simpl; intros H;
    try reflexivity; try discriminate;
    try (exfalso; eapply fmt_nat_not_single; [|exact H]; reflexivity);
    try (exfalso; eapply fmt_nat_not_single; [|exact (eq_sym H)]; reflexivity).
  f_equal; apply fmt_nat_inj, H.
Qed.

(** X3: every parse error but [Eof], and a lexer [InvalidChar] error,
    renders as the location of its token (or character), [": "], then the
    rest of the message. *)
Theorem error_messages_start_with_location :
  (forall pe, pe <> ParseError.Eof ->
     exists tok rest,
       fmt_parse_error pe = (fmt_loc (loc tok) ++ ": " ++ rest)%string /\
       (pe = ParseError.UnexpectedToken tok \/ pe = ParseError.NotExpression tok \/
        pe = ParseError.NotOperator tok \/ pe = ParseError.UnclosedOpenParen tok \/
        pe = ParseError.RedundantExpression tok)) /\
  (forall c l, exists rest,
     fmt_lex_error (mkAnnot (LexErrorKind.InvalidChar c) l) = (fmt_loc l ++ ": " ++ rest)%string).
Proof.
  split.
  - intros [tok|tok|tok|tok|tok|] Hne; [..|congruence];
      exists tok; eexists; split; [reflexivity| |reflexivity| |reflexivity| |reflexivity|
                                   |reflexivity|]; tauto.
  - intros c l; eexists; reflexivity.
Qed.

(** ** Diagnostics: the panic of [print_annot] *)

Lemma print_annot_panic input l out :
  loc_1 l < loc_0 l -> print_annot input l out = (None, (out ++ [input])%list).
Proof.
  intros H; unfold print_annot, io_bind, eprintln, usize_sub.
  replace (Nat.leb (loc_0 l) (loc_1 l)) with false
    by (symmetry; apply Nat.leb_gt; exact H).
  reflexivity.
Qed.

Lemma report_panic_iff msg input l out :
  fst (report msg input l out) = None <-> loc_1 l < loc_0 l.
Proof.
  split; intros H.
  - destruct (Nat.lt_ge_cases (loc_1 l) (loc_0 l)) as [Hl|Hl]; [exact Hl|].
    rewrite (report_ok msg input l out Hl) in H; discriminate.
  - unfold report, io_bind at 1, eprintln at 1.
    rewrite (print_annot_panic _ _ _ H); reflexivity.
Qed.



(** X5: the diagnostic of [RedundantExpression(tok)] panics exactly when
    the token starts past the end of the input. *)
Theorem redundant_diagnostic_panics_iff : forall tok input out,
  fst (show_diagnostic (Parser (ParseError.RedundantExpression tok)) input out) = None
  <-> String.length input < loc_0 (loc tok).
Proof.
  intros tok input out.
  change (show_diagnostic (Parser (ParseError.RedundantExpression tok)) input out)
    with (report (fmt_parse_error (ParseError.RedundantExpression tok)) input
            (mkLoc (loc_0 (loc tok)) (String.length input)) out).
  exact (report_panic_iff _ input (mkLoc (loc_0 (loc tok)) (String.length input)) out).
Qed.

(** X6: the diagnostic of the parser's [Eof] never panics: it prints
    ["End of file"], the input, and as many spaces as the input has bytes
    followed by one caret. *)
Theorem eof_diagnostic_output : forall input out,
  show_diagnostic (Parser ParseError.Eof) input out
  = (Some tt, (out ++ ["End of file"; input;
                       (repeat_str " " (String.length input) ++ "^")%string])%list).
Proof.
  intros input out.
  change (show_diagnostic (Parser ParseError.Eof) input out)
    with (report (fmt_parse_error ParseError.Eof) input
            (mkLoc (String.length input) (String.length input + 1)) out).
  rewrite report_ok by (simpl; lia). simpl.
  replace (String.length input + 1 - String.length input) with 1 by lia.
  reflexivity.
Qed.

(** X7: unlike its [Display] (the constant ["parser error"]), the first
    line [show_diagnostic] prints for a composite error is the message of
    its [source], the wrapped lexer or parser error, and the second line is
    the input. *)
Theorem show_diagnostic_prints_source_message : forall e input out,
  exists c rest,
    error_source e = Some c /\
    snd (show_diagnostic e input out) = (out ++ dyn_display c :: input :: rest)%list.
Proof.
  intros e input out.
  destruct (diagnostic_target e input) as [d l] eqn:Ht.
  assert (Hc : error_source e = Some d)
    by (destruct e as [le|pe]; simpl in Ht; injection Ht as <- _; reflexivity).
  assert (Hs : show_diagnostic e input out = report (dyn_display d) input l out)
    by (unfold show_diagnostic; rewrite Ht; reflexivity).
  exists d; rewrite Hs.
  destruct (Nat.lt_ge_cases (loc_1 l) (loc_0 l)) as [Hl|Hl].
  - exists []; split; [exact Hc|].
    unfold report, io_bind at 1, eprintln at 1.
    rewrite (print_annot_panic _ _ _ Hl); simpl; rewrite <- app_assoc; reflexivity.
  - eexists; split; [exact Hc|].
    rewrite (report_ok _ _ _ _ Hl); reflexivity.
Qed.

(** X8: [show_trace] on a lexer, parser or interpreter error prints its
    message alone: these types keep [StdError]'s default [source]. *)
Theorem show_trace_single_line : forall fuel out,
  (forall le, show_trace fuel (DLexError le) out
              = (Some tt, (out ++ [fmt_lex_error le])%list)) /\
  (forall pe, show_trace fuel (DParseError pe) out
              = (Some tt, (out ++ [fmt_parse_error pe])%list)) /\
  (forall ie, show_trace fuel (DInterpreterError ie) out
              = (Some tt, (out ++ [fmt_interpreter_error ie])%list)).
Proof.
  intros fuel out; repeat split; intros;
    unfold show_trace, show_trace_gen, io_bind, eprintln; simpl;
    destruct fuel; reflexivity.
Qed.

(** ** [main] *)

(** X9: [main] prompts with ["> "] (a write and a flush) before every read
    and prints one line per line read; it stops at the end of the input or
    at the first read error, with a last prompt, and never reads past
    it. *)
Theorem main_loop_stops_at_first_error : forall render pre rest,
  rest = [] \/ (exists r, rest = LineErr :: r) ->
  main_loop render (map LineOk pre ++ rest)
  = (flat_map (fun line =>
       prompt "> " ++ [Write (render line ++ String (ascii_of_nat 10) EmptyString)]) pre
     ++ prompt "> ")%list.
Proof.
  intros render pre rest Hr; induction pre as [|line pre IH]; simpl.
  - destruct Hr as [->|[r ->]]; reflexivity.
  - rewrite IH; reflexivity.
Qed.

Lemma main_loop_stops_at_first_error_witness :
  (LineErr :: [LineOk "2"] = [] \/ exists r, LineErr :: [LineOk "2"] = LineErr :: r) /\
  main_loop (fun s => s) (map LineOk ["1+2"] ++ LineErr :: [LineOk "2"])
  = (flat_map (fun line =>
       prompt "> " ++ [Write ((fun s => s) line ++ String (ascii_of_nat 10) EmptyString)])
       ["1+2"] ++ prompt "> ")%list.
Proof.
  assert (H : LineErr :: [LineOk "2"] = [] \/ exists r, LineErr :: [LineOk "2"] = LineErr :: r)
    by (right; eexists; reflexivity).
  split; [exact H|].
  exact (main_loop_stops_at_first_error (fun s => s) ["1+2"] _ H).
Defined.

Lemma fmt_loc_inj_witness :
  fmt_loc (mkLoc 12 3) = fmt_loc (mkLoc 12 3) /\ mkLoc 12 3 = mkLoc 12 3.
Proof.
  assert (H : fmt_loc (mkLoc 12 3) = fmt_loc (mkLoc 12 3)) by reflexivity.
  split; [exact H|exact (fmt_loc_inj _ _ H)].
Defined.

Lemma fmt_token_kind_inj_witness :
  fmt_token_kind (TokenKind.Number 42) = fmt_token_kind (TokenKind.Number 42) /\
  TokenKind.Number 42 = TokenKind.Number 42.
Proof.
  assert (H : fmt_token_kind (TokenKind.Number 42) = fmt_token_kind (TokenKind.Number 42))
    by reflexivity.
  split; [exact H|exact (fmt_token_kind_inj _ _ H)].
Defined.

Lemma error_messages_start_with_location_witness :
  let pe := ParseError.NotOperator (mkAnnot TokenKind.LParen (mkLoc 1 2)) in
  pe <> ParseError.Eof /\
  exists tok rest,
    fmt_parse_error pe = (fmt_loc (loc tok) ++ ": " ++ rest)%string /\
    (pe = ParseError.UnexpectedToken tok \/ pe = ParseError.NotExpression tok \/
     pe = ParseError.NotOperator tok \/ pe = ParseError.UnclosedOpenParen tok \/
     pe = ParseError.RedundantExpression tok).
Proof.
  intros pe.
  assert (H : pe <> ParseError.Eof) by discriminate.
  split; [exact H|exact (proj1 error_messages_start_with_location pe H)].
Defined.
